(** * RayTracing/Common.h: hash, counter-based RNG, float extraction and
    barycentric vertex interpolation.

    32-bit [uint] values are modelled as [Z] in [[0, 2^32)] with the
    wrap-around of multiplication and left shift written out; [float] is
    IEEE-754 binary32 modelled by [spec_float] with [prec = 24] and
    [emax = 128] (round to nearest even). *)

From Stdlib Require Import ZArith Lia Bool List.
From Stdlib Require Import Floats.SpecFloat.
Import ListNotations.

Local Open Scope Z_scope.

(** ** 32-bit unsigned words *)
Module U32.

Definition modulus : Z := 2 ^ 32.

(** [a * b] on [uint]. *)
Definition mul (a b : Z) : Z := (a * b) mod modulus.

(** [a << n] on [uint]: the bits shifted past bit 31 are lost. *)
Definition shl (a n : Z) : Z := (Z.shiftl a n) mod modulus.

(** [a >> n], [a ^ b] and [a | b] never leave the 32-bit range. *)
Definition shr (a n : Z) : Z := Z.shiftr a n.
Definition xor (a b : Z) : Z := Z.lxor a b.
Definition or (a b : Z) : Z := Z.lor a b.

Definition in_range (a : Z) : Prop := 0 <= a < modulus.

End U32.

(** ** [uint Hash(uint seed)] *)
Definition Hash (seed0 : Z) : Z :=
  let seed1 := U32.xor (U32.xor seed0 61) (U32.shr seed0 16) in
  let seed2 := U32.mul seed1 9 in
  let seed3 := U32.xor seed2 (U32.shr seed2 4) in
  let seed4 := U32.mul seed3 0x27d4eb2d in
  let seed5 := U32.xor seed4 (U32.shr seed4 15) in
  seed5.

(** ** [struct CRNG { uint2 Seed; }] *)
Record CRNG := mkCRNG { seed_x : Z; seed_y : Z }.

(** [uint RngNext(thread CRNG& rng)]: the reference parameter is threaded
    explicitly; the function returns the result and the updated state. *)
Definition RngNext (rng : CRNG) : Z * CRNG :=
  let result := U32.mul (seed_x rng) 0x9e3779bb in
  (* rng.Seed.y ^= rng.Seed.x; *)
  let y1 := U32.xor (seed_y rng) (seed_x rng) in
  (* rng.Seed.x = ((x << 26) | (x >> (32 - 26))) ^ y ^ (y << 9); *)
  let x1 := U32.xor
              (U32.xor (U32.or (U32.shl (seed_x rng) 26) (U32.shr (seed_x rng) (32 - 26))) y1)
              (U32.shl y1 9) in
  (* rng.Seed.y = (x << 13) | (x >> (32 - 13)); *)
  let y2 := U32.or (U32.shl x1 13) (U32.shr x1 (32 - 13)) in
  (result, mkCRNG x1 y2).

(** [CRNG InitCRND(uint2 id, uint frameIndex)]; [id] is [(id_x, id_y)]. *)
Definition InitCRND (id_x id_y frameIndex : Z) : CRNG :=
  let s0 := U32.or (U32.shl id_x 16) id_y in
  let s1 := frameIndex in
  let rng := mkCRNG (Hash s0) (Hash s1) in
  snd (RngNext rng).

(** [n] successive calls of [RngNext] on one state: the values returned. *)
Fixpoint rng_outputs (n : nat) (rng : CRNG) : list Z :=
  match n with
  | O => []
  | S n' => let '(r, rng') := RngNext rng in r :: rng_outputs n' rng'
  end.

(** ** IEEE-754 binary32 *)
Module F32.

Definition prec : Z := 24.
Definition emax : Z := 128.

Definition float := spec_float.

Definition add (a b : float) : float := SFadd prec emax a b.
Definition sub (a b : float) : float := SFsub prec emax a b.
Definition mul (a b : float) : float := SFmul prec emax a b.

Definition valid (a : float) : bool := valid_binary prec emax a.

(** [as_type<float>(bits)]: decoding of a 32-bit pattern as a binary32
    value (sign bit 31, biased exponent bits 23..30, fraction bits 0..22). *)
Definition of_bits (x : Z) : float :=
  let m := Z.land x (2 ^ 23 - 1) in
  let e := Z.land (Z.shiftr x 23) 255 in
  let s := Z.testbit x 31 in
  if e =? 0 then
    match m with
    | Zpos p => S754_finite s p (-149)
    | _ => S754_zero s
    end
  else if e =? 255 then
    (if m =? 0 then S754_infinity s else S754_nan)
  else S754_finite s (Z.to_pos (m + 2 ^ 23)) (e - 150).

Definition zero : float := S754_zero false.
Definition one : float := of_bits 0x3f800000.

Definition leb (a b : float) : bool := SFleb a b.
Definition ltb (a b : float) : bool := SFltb a b.

End F32.

(** [float Rand(thread CRNG& rng)] *)
Definition Rand (rng : CRNG) : F32.float * CRNG :=
  let '(r, rng') := RngNext rng in
  let u := U32.or 0x3f800000 (U32.shr r 9) in
  (F32.sub (F32.of_bits u) F32.one, rng').

(** ** [packed_float2], [packed_float3] and [struct Vertex] *)
Record float2 := mkF2 { f2x : F32.float; f2y : F32.float }.
Record float3 := mkF3 { f3x : F32.float; f3y : F32.float; f3z : F32.float }.

Record Vertex := mkVertex { position : float3; normal : float3; texcoord : float2 }.

(** Component-wise [a * s] and [a + b]. *)
Definition scale3 (a : float3) (s : F32.float) : float3 :=
  mkF3 (F32.mul (f3x a) s) (F32.mul (f3y a) s) (F32.mul (f3z a) s).
Definition add3 (a b : float3) : float3 :=
  mkF3 (F32.add (f3x a) (f3x b)) (F32.add (f3y a) (f3y b)) (F32.add (f3z a) (f3z b)).
Definition scale2 (a : float2) (s : F32.float) : float2 :=
  mkF2 (F32.mul (f2x a) s) (F32.mul (f2y a) s).
Definition add2 (a b : float2) : float2 :=
  mkF2 (F32.add (f2x a) (f2x b)) (F32.add (f2y a) (f2y b)).

(** [Vertex Interpolate(v0, v1, v2, float3 barycentric)] *)
Definition Interpolate3 (v0 v1 v2 : Vertex) (barycentric : float3) : Vertex :=
  let u := f3x barycentric in
  let v := f3y barycentric in
  let w := f3z barycentric in
  mkVertex
    (add3 (add3 (scale3 (position v0) u) (scale3 (position v1) v)) (scale3 (position v2) w))
    (add3 (add3 (scale3 (normal v0) u) (scale3 (normal v1) v)) (scale3 (normal v2) w))
    (add2 (add2 (scale2 (texcoord v0) u) (scale2 (texcoord v1) v)) (scale2 (texcoord v2) w)).

(** [Vertex Interpolate(v0, v1, v2, float2 barycentric)] *)
Definition Interpolate2 (v0 v1 v2 : Vertex) (barycentric : float2) : Vertex :=
  let u := f2x barycentric in
  let v := f2y barycentric in
  let w := F32.sub (F32.sub F32.one u) v in
  mkVertex
    (add3 (add3 (scale3 (position v0) u) (scale3 (position v1) v)) (scale3 (position v2) w))
    (add3 (add3 (scale3 (normal v0) u) (scale3 (normal v1) v)) (scale3 (normal v2) w))
    (add2 (add2 (scale2 (texcoord v0) u) (scale2 (texcoord v1) v)) (scale2 (texcoord v2) w)).

(** ** Readings of the specification, to be compared with the code *)

(** §4.3: [rotateLeft32(x, n) = (x << n) | (x >> (32 - n))]. *)
Definition rotl32 (x n : Z) : Z := U32.or (U32.shl x n) (U32.shr x (32 - n)).

(** §4.3: the step as written in the specification's pseudo-code. *)
Definition rng_step_spec (rng : CRNG) : Z * CRNG :=
  let x := seed_x rng in
  let y := seed_y rng in
  let result := U32.mul x 0x9e3779bb in
  let y' := U32.xor y x in
  let x'' := U32.xor (U32.xor (rotl32 x 26) y') (U32.shl y' 9) in
  let y'' := rotl32 x'' 13 in
  (result, mkCRNG x'' y'').

(** §4.2: pack, hash both seeds, then one discarded warm-up step. *)
Definition init_spec (id_x id_y frameIndex : Z) : CRNG :=
  let packed := U32.or (U32.shl id_x 16) id_y in
  let '(_, rng) := RngNext (mkCRNG (Hash packed) (Hash frameIndex)) in
  rng.

(** An xor-shift stage [x ^ (x >> k)]. *)
Definition xorshift (k x : Z) : Z := U32.xor x (U32.shr x k).

(** §4.1 read literally: xor-shift, [* 9], xor-shift, [* 0x27d4eb2d],
    xor-shift, for some shift amounts [a], [b], [c], and nothing else. *)
Definition hash_five (a b c seed : Z) : Z :=
  xorshift c (U32.mul (xorshift b (U32.mul (xorshift a seed) 9)) 0x27d4eb2d).

(** The stages of [Hash] as they are in the code: the first xor-shift is
    followed by an xor with the constant [61]. *)
Definition hash_stages (seed : Z) : Z :=
  xorshift 15 (U32.mul (xorshift 4 (U32.mul (U32.xor (xorshift 16 seed) 61) 9)) 0x27d4eb2d).

(** Boolean duplicate-freedom check on a list of words. *)
Fixpoint nodupb (l : list Z) : bool :=
  match l with
  | [] => true
  | x :: t => negb (existsb (Z.eqb x) t) && nodupb t
  end.

(** [n] iterations of [RngNext]: the state reached. *)
Fixpoint rng_iter (n : nat) (rng : CRNG) : CRNG :=
  match n with
  | O => rng
  | S n' => rng_iter n' (snd (RngNext rng))
  end.

(** The integers of [[0, m)], as a list. *)
Definition below (m : Z) : list Z := map Z.of_nat (seq 0 (Z.to_nat m)).

(** ** Binary32 predicates and sample vertices *)

(** A binary32 value that is zero or a well-formed finite number. *)
Definition is_finite (a : F32.float) : bool :=
  match a with
  | S754_zero _ => true
  | S754_finite _ _ _ => F32.valid a
  | _ => false
  end.


(** [r] is [a], or [a] is [-0.0] and [r] is [+0.0] (which compare equal). *)
Definition same_value (r a : F32.float) : Prop :=
  r = a \/ (a = S754_zero true /\ r = S754_zero false).

Definition float3_finite (a : float3) : bool :=
  is_finite (f3x a) && is_finite (f3y a) && is_finite (f3z a).
Definition float2_finite (a : float2) : bool :=
  is_finite (f2x a) && is_finite (f2y a).

(** Every component of the vertex is zero or a finite number. *)
Definition vertex_finite (v : Vertex) : bool :=
  float3_finite (position v) && float3_finite (normal v) && float2_finite (texcoord v).

Definition vertex_same_value (r a : Vertex) : Prop :=
  same_value (f3x (position r)) (f3x (position a)) /\
  same_value (f3y (position r)) (f3y (position a)) /\
  same_value (f3z (position r)) (f3z (position a)) /\
  same_value (f3x (normal r)) (f3x (normal a)) /\
  same_value (f3y (normal r)) (f3y (normal a)) /\
  same_value (f3z (normal r)) (f3z (normal a)) /\
  same_value (f2x (texcoord r)) (f2x (texcoord a)) /\
  same_value (f2y (texcoord r)) (f2y (texcoord a)).

Definition weights_100 : float3 := mkF3 F32.one F32.zero F32.zero.
Definition weights_010 : float3 := mkF3 F32.zero F32.one F32.zero.
Definition weights_001 : float3 := mkF3 F32.zero F32.zero F32.one.

(** An infinity or a NaN. *)
Definition nonfinite (a : F32.float) : bool :=
  match a with
  | S754_infinity _ | S754_nan => true
  | _ => false
  end.

(** The eight float components of a [Vertex]. *)
Definition vertex_components : list (Vertex -> F32.float) :=
  [ (fun v => f3x (position v)); (fun v => f3y (position v)); (fun v => f3z (position v));
    (fun v => f3x (normal v)); (fun v => f3y (normal v)); (fun v => f3z (normal v));
    (fun v => f2x (texcoord v)); (fun v => f2y (texcoord v)) ].

(** One component of the three-weight [Interpolate]:
    [a * u + b * v + c * w], summed left to right. *)
Definition blend3 (a b c : F32.float) (barycentric : float3) : F32.float :=
  F32.add (F32.add (F32.mul a (f3x barycentric)) (F32.mul b (f3y barycentric)))
          (F32.mul c (f3z barycentric)).

Definition vertex_zero : Vertex :=
  mkVertex (mkF3 F32.zero F32.zero F32.zero) (mkF3 F32.zero F32.zero F32.zero)
           (mkF2 F32.zero F32.zero).

Definition vertex_inf : Vertex :=
  mkVertex (mkF3 (S754_infinity false) F32.zero F32.zero) (mkF3 F32.zero F32.zero F32.zero)
           (mkF2 F32.zero F32.zero).

Definition vertex_a : Vertex :=
  mkVertex (mkF3 F32.one F32.zero (S754_zero true))
           (mkF3 F32.zero F32.one F32.zero)
           (mkF2 (F32.of_bits 0x3f000000) F32.one).

Definition vertex_b : Vertex :=
  mkVertex (mkF3 (F32.of_bits 0x40000000) (F32.of_bits 0xbf800000) F32.zero)
           (mkF3 F32.one F32.zero F32.zero)
           (mkF2 F32.zero (F32.of_bits 0x3e800000)).

(** ** Further definitions used by the properties of the whole header *)

(** A left xor-shift stage [x ^ (x << k)] on 32-bit words, as in the
    update of [Seed.x] in [RngNext]. *)
Definition xorshl (k x : Z) : Z := U32.xor x (U32.shl x k).

Example Hash_0 : Hash 0 = 3232319850. Proof. reflexivity. Qed.
Example Hash_1 : Hash 1 = 663891101. Proof. reflexivity. Qed.
Example one_bits : F32.one = S754_finite false (2 ^ 23) (-23). Proof. reflexivity. Qed.
Example one_SFone : F32.one = SFone F32.prec F32.emax. Proof. reflexivity. Qed.

(** ** General lemmas *)

Lemma nodupb_NoDup : forall l, nodupb l = true -> NoDup l.
Proof.
  induction l as [|x t IH]; simpl; intros H.
  - constructor.
  - apply andb_prop in H as [Hx Ht].
    constructor; [|exact (IH Ht)].
    intros Hin. apply negb_true_iff in Hx.
    assert (existsb (Z.eqb x) t = true) as Hex.
    { apply existsb_exists. exists x. split; [exact Hin | apply Z.eqb_refl]. }
    congruence.
Qed.

Lemma rng_outputs_length : forall n rng, length (rng_outputs n rng) = n.
Proof.
  induction n as [|n IH]; intros rng; simpl; [reflexivity|].
  destruct (RngNext rng) as [r rng']. simpl. now rewrite IH.
Qed.

(** ** C1 *)

(** Claim C1: one call of [RngNext] returns [seedX * 0x9e3779bb] of the
    state before the call and updates the state by
    [seedY' = seedY ^ seedX], [seedX'' = rotl(seedX, 26) ^ seedY' ^ (seedY' << 9)],
    [seedY'' = rotl(seedX'', 13)], all modulo [2^32]. *)
Theorem RngNext_refines_spec : forall rng, RngNext rng = rng_step_spec rng.
Proof. intros [x y]. reflexivity. Qed.

(** ** C2 *)

(** Claim C2: [InitCRND id frameIndex] hashes [(id.x << 16) | id.y] into
    [seedX], [frameIndex] into [seedY], then advances once, discarding the
    value produced. *)
Theorem InitCRND_refines_spec : forall id_x id_y frameIndex,
  InitCRND id_x id_y frameIndex = init_spec id_x id_y frameIndex.
Proof. intros. unfold InitCRND, init_spec. destruct (RngNext _). reflexivity. Qed.

(** ** C4 *)

(** Claim C4: the two-weight [Interpolate] on [(u, v)] is, field for field
    and bit for bit, the three-weight [Interpolate] on
    [(u, v, 1.0f - u - v)] (the third weight computed in binary32 as the
    code does); this holds for all [u], [v], not only when [u + v <= 1]. *)
Theorem Interpolate2_eq_Interpolate3 : forall v0 v1 v2 u v,
  Interpolate2 v0 v1 v2 (mkF2 u v) =
  Interpolate3 v0 v1 v2 (mkF3 u v (F32.sub (F32.sub F32.one u) v)).
Proof. intros. reflexivity. Qed.

(** ** C6 *)

(** Claim C6 (counterexample): no choice of shift amounts makes [Hash] the
    bare five-stage sequence, since that sequence maps [0] to [0] while
    [Hash 0 = 3232319850]. *)
Lemma Hash_not_five_stages :
  ~ exists a b c : Z, forall seed, U32.in_range seed -> Hash seed = hash_five a b c seed.
Proof.
  intros [a [b [c H]]].
  specialize (H 0 ltac:(unfold U32.in_range, U32.modulus; lia)).
  assert (Hx : forall k, xorshift k 0 = 0).
  { intros k. unfold xorshift, U32.xor, U32.shr. now rewrite Z.shiftr_0_l. }
  unfold hash_five in H. rewrite Hx in H. change (U32.mul 0 9) with 0 in H.
  rewrite Hx in H. change (U32.mul 0 0x27d4eb2d) with 0 in H.
  rewrite Hx in H. discriminate H.
Qed.

(** Claim C6 (amended): [Hash] is the xor-shift by 16 followed by an xor
    with the constant 61, then [* 9], the xor-shift by 4, [* 0x27d4eb2d]
    and the xor-shift by 15, all on 32-bit words. *)
Theorem Hash_stages : forall seed, Hash seed = hash_stages seed.
Proof.
  intros seed. unfold Hash, hash_stages, xorshift, U32.xor.
  replace (Z.lxor (Z.lxor seed 61) (U32.shr seed 16))
    with (Z.lxor (Z.lxor seed (U32.shr seed 16)) 61); [reflexivity|].
  rewrite !Z.lxor_assoc. f_equal. apply Z.lxor_comm.
Qed.

(** ** C7 *)

(** Claim C7: there is a state whose two seeds are 32-bit words, namely
    [InitCRND (0,0) 0], from which the first 1000 values returned by
    successive [RngNext] calls are pairwise distinct. *)
Theorem rng_first_1000_distinct :
  exists rng : CRNG,
    U32.in_range (seed_x rng) /\ U32.in_range (seed_y rng) /\
    NoDup (rng_outputs 1000 rng).
Proof.
  exists (InitCRND 0 0 0).
  split; [|split].
  - unfold U32.in_range, U32.modulus. vm_compute. split; [intro H; discriminate H | reflexivity].
  - unfold U32.in_range, U32.modulus. vm_compute. split; [intro H; discriminate H | reflexivity].
  - apply nodupb_NoDup. vm_compute. reflexivity.
Qed.

(** ** C8 *)

(** Claim C8: [Hash 0 <> Hash 1] and
    [InitCRND (0,0) 0 <> InitCRND (0,0) 1]. *)
Theorem Hash_InitCRND_examples_differ :
  Hash 0 <> Hash 1 /\ InitCRND 0 0 0 <> InitCRND 0 0 1.
Proof.
  split; intros H; vm_compute in H; discriminate H.
Qed.

(** ** C9 *)

(** Claim C9: the all-zero state is a fixed point of [RngNext]: one call
    returns [0] and leaves [(0, 0)], so any number of calls returns only
    zeros and stays in [(0, 0)]. *)
Theorem RngNext_zero_fixed_point :
  RngNext (mkCRNG 0 0) = (0, mkCRNG 0 0) /\
  forall n, rng_outputs n (mkCRNG 0 0) = repeat 0 n /\ rng_iter n (mkCRNG 0 0) = mkCRNG 0 0.
Proof.
  assert (Hz : RngNext (mkCRNG 0 0) = (0, mkCRNG 0 0)) by reflexivity.
  split; [exact Hz|].
  induction n as [|n [IHo IHi]]; [split; reflexivity|].
  cbn [rng_outputs rng_iter]. rewrite Hz. cbn [snd]. rewrite IHo, IHi.
  split; reflexivity.
Qed.

(** ** Bit-level lemmas on 32-bit words *)

Lemma testbit_high : forall x n,
  U32.in_range x -> 32 <= n -> Z.testbit x n = false.
Proof.
  intros x n [H0 H1] Hn. unfold U32.modulus in H1.
  rewrite <- (Z.mod_small x (2 ^ 32)) by lia.
  apply Z.mod_pow2_bits_high. lia.
Qed.

Lemma range_of_bits : forall x,
  0 <= x -> (forall n, 32 <= n -> Z.testbit x n = false) -> U32.in_range x.
Proof.
  intros x H0 Hb. unfold U32.in_range, U32.modulus.
  assert (Hx : x = x mod 2 ^ 32).
  { apply Z.bits_inj'. intros n Hn.
    destruct (Z.lt_ge_cases n 32).
    - rewrite Z.mod_pow2_bits_low by lia. reflexivity.
    - rewrite Z.mod_pow2_bits_high by lia. now apply Hb. }
  rewrite Hx. apply Z.mod_pos_bound. lia.
Qed.

Lemma xor_range : forall a b,
  U32.in_range a -> U32.in_range b -> U32.in_range (U32.xor a b).
Proof.
  intros a b Ha Hb. unfold U32.xor. apply range_of_bits.
  - apply Z.lxor_nonneg. unfold U32.in_range in *; lia.
  - intros n Hn. rewrite Z.lxor_spec, !testbit_high by (assumption || lia). reflexivity.
Qed.

Lemma shr_range : forall a k,
  U32.in_range a -> 0 <= k -> U32.in_range (U32.shr a k).
Proof.
  intros a k Ha Hk. unfold U32.shr. apply range_of_bits.
  - apply Z.shiftr_nonneg. unfold U32.in_range in *; lia.
  - intros n Hn. rewrite Z.shiftr_spec by lia. apply testbit_high; [assumption|lia].
Qed.

Lemma mul_range : forall a b, U32.in_range (U32.mul a b).
Proof.
  intros a b. unfold U32.in_range, U32.mul, U32.modulus.
  apply Z.mod_pos_bound. lia.
Qed.

Lemma xorshift_range : forall k x,
  0 <= k -> U32.in_range x -> U32.in_range (xorshift k x).
Proof.
  intros k x Hk Hx. unfold xorshift. apply xor_range; [assumption|].
  now apply shr_range.
Qed.

(** An xor-shift to the right is injective on 32-bit words: the bits are
    recovered from bit 31 downwards. *)
Lemma xorshift_inj : forall k x y,
  0 < k -> U32.in_range x -> U32.in_range y ->
  xorshift k x = xorshift k y -> x = y.
Proof.
  intros k x y Hk Hx Hy Heq.
  assert (Hdown : forall d : nat, forall n, 0 <= n ->
            32 - Z.of_nat d <= n -> Z.testbit x n = Z.testbit y n).
  { induction d as [|d IH]; intros n Hn0 Hn.
    - rewrite !testbit_high by (assumption || lia). reflexivity.
    - destruct (Z.le_gt_cases (32 - Z.of_nat d) n) as [Hle|Hgt]; [now apply IH|].
      assert (Hbit : Z.testbit (xorshift k x) n = Z.testbit (xorshift k y) n)
        by now rewrite Heq.
      unfold xorshift, U32.xor, U32.shr in Hbit.
      rewrite !Z.lxor_spec, !Z.shiftr_spec in Hbit by exact Hn0.
      rewrite (IH (n + k)) in Hbit by lia.
      destruct (Z.testbit x n), (Z.testbit y n), (Z.testbit y (n + k));
        simpl in Hbit; congruence. }
  apply Z.bits_inj'. intros n Hn. apply (Hdown 32%nat); lia.
Qed.

Lemma xor_const_inj : forall c x y, U32.xor x c = U32.xor y c -> x = y.
Proof.
  intros c x y H. unfold U32.xor in H.
  rewrite <- (Z.lxor_0_r x), <- (Z.lxor_0_r y), <- (Z.lxor_nilpotent c),
    <- !Z.lxor_assoc, H. reflexivity.
Qed.

(** Multiplication modulo [2^32] by a constant with an inverse modulo
    [2^32] (an odd constant) is undone by multiplying with the inverse. *)
Lemma mul_inverse : forall a a' x,
  (a * a') mod U32.modulus = 1 -> U32.in_range x ->
  U32.mul (U32.mul x a) a' = x.
Proof.
  intros a a' x Hinv Hx. unfold U32.mul.
  rewrite Z.mul_mod_idemp_l by (unfold U32.modulus; lia).
  rewrite <- Z.mul_assoc, <- Z.mul_mod_idemp_r by (unfold U32.modulus; lia).
  rewrite Hinv, Z.mul_1_r. apply Z.mod_small. exact Hx.
Qed.

Lemma mul_inj : forall a a' x y,
  (a * a') mod U32.modulus = 1 -> U32.in_range x -> U32.in_range y ->
  U32.mul x a = U32.mul y a -> x = y.
Proof.
  intros a a' x y Hinv Hx Hy H.
  rewrite <- (mul_inverse a a' x), <- (mul_inverse a a' y) by assumption.
  now rewrite H.
Qed.

Lemma inv_9 : (9 * 954437177) mod U32.modulus = 1.
Proof. reflexivity. Qed.

Lemma inv_27d4eb2d : (0x27d4eb2d * 4218002597) mod U32.modulus = 1.
Proof. reflexivity. Qed.

Lemma Hash_range : forall x, U32.in_range x -> U32.in_range (Hash x).
Proof.
  intros x Hx. rewrite Hash_stages. unfold hash_stages.
  apply xorshift_range; [lia|]. apply mul_range.
Qed.

Lemma Hash_inj : forall x y,
  U32.in_range x -> U32.in_range y -> Hash x = Hash y -> x = y.
Proof.
  intros x y Hx Hy H. rewrite !Hash_stages in H. unfold hash_stages in H.
  apply xorshift_inj in H; try lia; try apply mul_range.
  apply (mul_inj _ _ _ _ inv_27d4eb2d) in H;
    try (apply xorshift_range; [lia | apply mul_range]).
  apply xorshift_inj in H; try lia; try apply mul_range.
  apply (mul_inj _ _ _ _ inv_9) in H;
    try (apply xor_range; [apply xorshift_range; [lia | assumption]
                          | unfold U32.in_range, U32.modulus; lia]).
  apply xor_const_inj in H.
  apply xorshift_inj in H; [assumption | lia | assumption | assumption].
Qed.

Section Pigeonhole.

Variable m : Z.
Hypothesis Hm : 0 <= m.

Lemma in_below : forall x, In x (below m) <-> 0 <= x < m.
Proof.
  intros x. unfold below. rewrite in_map_iff. split.
  - intros [n [<- Hn]]. apply in_seq in Hn. lia.
  - intros Hx. exists (Z.to_nat x). split; [apply Z2Nat.id; lia|].
    apply in_seq. lia.
Qed.

(** A map of [[0, m)] into itself that is injective there is onto it. *)
Lemma injective_onto : forall f : Z -> Z,
  (forall x, 0 <= x < m -> 0 <= f x < m) ->
  (forall x y, 0 <= x < m -> 0 <= y < m -> f x = f y -> x = y) ->
  forall y, 0 <= y < m -> exists x, 0 <= x < m /\ f x = y.
Proof.
  intros f Hr Hi y Hy.
  assert (Hnd : NoDup (map f (below m))).
  { apply NoDup_map_NoDup_ForallPairs.
    - intros a b Ha Hb. apply in_below in Ha, Hb. now apply Hi.
    - unfold below. apply NoDup_map_NoDup_ForallPairs; [|apply seq_NoDup].
      intros a b _ _ H. now apply Nat2Z.inj. }
  assert (Hincl : incl (below m) (map f (below m))).
  { apply NoDup_length_incl; [exact Hnd | rewrite length_map; apply le_n |].
    intros z Hz. apply in_map_iff in Hz as [x [<- Hx]].
    apply in_below. apply Hr. now apply in_below. }
  apply in_below, Hincl, in_map_iff in Hy as [x [Hfx Hx]].
  exists x. split; [now apply in_below | exact Hfx].
Qed.

End Pigeonhole.

(** ** C10 *)

(** Claim C10: [Hash] is a bijection of the 32-bit words: it maps them into
    themselves, distinct words hash to distinct words, and every word is the
    hash of some word. *)
Theorem Hash_bijective :
  (forall x, U32.in_range x -> U32.in_range (Hash x)) /\
  (forall x y, U32.in_range x -> U32.in_range y -> x <> y -> Hash x <> Hash y) /\
  (forall y, U32.in_range y -> exists x, U32.in_range x /\ Hash x = y).
Proof.
  split; [exact Hash_range|]. split.
  - intros x y Hx Hy Hne Heq. apply Hne. now apply Hash_inj.
  - apply (injective_onto U32.modulus); [exact Hash_range | exact Hash_inj].
Qed.

Lemma Hash_bijective_witness :
  U32.in_range 0 /\ U32.in_range 1 /\ (0 <> 1) /\ Hash 0 <> Hash 1.
Proof.
  assert (H0 : U32.in_range 0) by (unfold U32.in_range, U32.modulus; lia).
  assert (H1 : U32.in_range 1) by (unfold U32.in_range, U32.modulus; lia).
  split; [exact H0|]. split; [exact H1|]. split; [lia|].
  exact (proj1 (proj2 Hash_bijective) 0 1 H0 H1 ltac:(lia)).
Defined.

(** ** Binary32 lemmas *)

Lemma digits2_size : forall p, digits2_pos p = Pos.size p.
Proof. induction p; simpl; congruence. Qed.

Lemma size_iter_xO : forall p k, Pos.size (Pos.iter xO p k) = (Pos.size p + k)%positive.
Proof.
  intros p k. induction k using Pos.peano_ind.
  - simpl. now rewrite Pos.add_1_r.
  - rewrite Pos.iter_succ. simpl. rewrite IHk, Pos.add_succ_r. reflexivity.
Qed.

Lemma size_bound : forall p k, 0 <= k -> Zpos p < 2 ^ k -> Zpos (Pos.size p) <= k.
Proof.
  intros p k Hk Hp. pose proof (Pos.size_le p) as Hle.
  apply Pos2Z.pos_le_pos in Hle. rewrite Pos2Z.inj_pow in Hle.
  change (Zpos 2) with 2 in Hle.
  replace (Zpos p~0) with (2 * Zpos p) in Hle by lia.
  assert (H2 : 2 ^ Zpos (Pos.size p) < 2 ^ (k + 1))
    by (rewrite Z.pow_add_r, Z.pow_1_r by lia; lia).
  apply Z.pow_lt_mono_r_iff in H2; lia.
Qed.

Lemma fexp_F32 : forall e, fexp F32.prec F32.emax e = Z.max (e - 24) (-149).
Proof. reflexivity. Qed.

Lemma shl_align_same : forall m e, shl_align m e e = (m, e).
Proof. intros m e. unfold shl_align. rewrite Z.sub_diag. reflexivity. Qed.

Lemma shl_align_lt : forall m e e', e' < e ->
  shl_align m e e' = (Pos.iter xO m (Z.to_pos (e - e')), e').
Proof.
  intros m e e' H. unfold shl_align.
  replace (e' - e) with (Zneg (Z.to_pos (e - e'))).
  - reflexivity.
  - rewrite <- Pos2Z.opp_pos, Z2Pos.id by lia. lia.
Qed.

(** Rounding a mantissa that already has the canonical exponent changes
    nothing. *)
Lemma round_aux_exact : forall s m e,
  fexp F32.prec F32.emax (Zpos (digits2_pos m) + e) = e -> e <= 104 ->
  binary_round_aux F32.prec F32.emax s (Zpos m) e loc_Exact = S754_finite s m e.
Proof.
  intros s m e Hc Hb. unfold binary_round_aux, shr_fexp. cbn [Zdigits2].
  rewrite Hc, Z.sub_diag. cbn [shr shr_record_of_loc loc_of_shr_record shr_m round_nearest_even].
  cbn [Zdigits2]. rewrite Hc, Z.sub_diag. cbn [shr shr_m].
  replace (e <=? F32.emax - F32.prec) with true; [reflexivity|].
  symmetry. apply Z.leb_le. unfold F32.emax, F32.prec. lia.
Qed.

Lemma lor_exponent_one : forall m, 0 <= m < 2 ^ 23 -> Z.lor 0x3f800000 m = 0x3f800000 + m.
Proof.
  intros m Hm.
  assert (Hand : Z.land 0x3f800000 m = 0).
  { apply Z.bits_inj'. intros n Hn. rewrite Z.land_spec, Z.bits_0.
    destruct (Z.lt_ge_cases n 23).
    - change 0x3f800000 with (Z.shiftl 127 23). rewrite Z.shiftl_spec_low by lia.
      reflexivity.
    - rewrite <- (Z.mod_small m (2 ^ 23)) by lia.
      rewrite Z.mod_pow2_bits_high by lia. apply andb_false_r. }
  rewrite Z.add_nocarry_lxor, Z.lxor_lor by exact Hand. reflexivity.
Qed.

Lemma of_bits_one_mantissa : forall m, 0 <= m < 2 ^ 23 ->
  F32.of_bits (Z.lor 0x3f800000 m) = S754_finite false (Z.to_pos (m + 2 ^ 23)) (-23).
Proof.
  intros m Hm. rewrite lor_exponent_one by exact Hm.
  assert (Hlo : Z.land (0x3f800000 + m) (2 ^ 23 - 1) = m).
  { change (2 ^ 23 - 1) with (Z.ones 23). rewrite Z.land_ones by lia.
    change 0x3f800000 with (127 * 2 ^ 23).
    rewrite Z.add_comm, Z.mod_add by lia. apply Z.mod_small. exact Hm. }
  assert (Hhi : Z.shiftr (0x3f800000 + m) 23 = 127).
  { rewrite Z.shiftr_div_pow2 by lia. change 0x3f800000 with (127 * 2 ^ 23).
    rewrite Z.add_comm, Z.div_add by lia. rewrite Z.div_small by exact Hm. reflexivity. }
  assert (Hs : Z.testbit (0x3f800000 + m) 31 = false).
  { replace 31 with (8 + 23) by reflexivity.
    rewrite <- Z.shiftr_spec by lia. rewrite Hhi. reflexivity. }
  unfold F32.of_bits. cbv zeta. rewrite Hlo, Hhi, Hs. reflexivity.
Qed.

Lemma sub_one_pos : forall p, Zpos p < 2 ^ 23 ->
  F32.sub (S754_finite false (Z.to_pos (Zpos p + 2 ^ 23)) (-23)) F32.one =
  binary_round F32.prec F32.emax false p (-23).
Proof.
  intros p Hp. rewrite one_bits. unfold F32.sub, SFsub.
  change (Z.min (-23) (-23)) with (-23). rewrite !shl_align_same.
  cbn [fst cond_Zopp]. rewrite Z2Pos.id by lia.
  change (Zpos (2 ^ 23)) with (2 ^ 23).
  replace (Zpos p + 2 ^ 23 - 2 ^ 23) with (Zpos p) by lia. reflexivity.
Qed.

Lemma round_small_pos : forall p, Zpos p < 2 ^ 23 ->
  exists mz ez, binary_round F32.prec F32.emax false p (-23) = S754_finite false mz ez /\ ez < -23.
Proof.
  intros p Hp. pose proof (size_bound p 23 ltac:(lia) Hp) as Hd.
  pose proof (Pos2Z.is_pos (Pos.size p)) as Hd0.
  unfold binary_round. rewrite digits2_size, fexp_F32.
  replace (Z.max (Zpos (Pos.size p) + -23 - 24) (-149)) with (Zpos (Pos.size p) - 47) by lia.
  rewrite shl_align_lt by lia.
  exists (Pos.iter xO p (Z.to_pos (-23 - (Zpos (Pos.size p) - 47)))), (Zpos (Pos.size p) - 47).
  split; [|lia].
  apply round_aux_exact; [|lia].
  rewrite digits2_size, size_iter_xO, fexp_F32, Pos2Z.inj_add, Z2Pos.id by lia. lia.
Qed.

Lemma RngNext_result_range : forall rng, U32.in_range (fst (RngNext rng)).
Proof. intros rng. apply mul_range. Qed.

(** ** C3 *)

(** Claim C3: [Rand] builds the pattern [0x3f800000 | (w >> 9)] from the
    word [w] returned by [RngNext], reads it as a binary32 value and
    subtracts [1.0]; the result [r] satisfies [0 <= r < 1] (so it is neither
    a NaN nor [-0.0]). *)
Theorem Rand_in_unit_interval : forall rng,
  let r := fst (Rand rng) in
  r = F32.sub (F32.of_bits (U32.or 0x3f800000 (U32.shr (fst (RngNext rng)) 9))) F32.one /\
  F32.leb F32.zero r = true /\ F32.ltb r F32.one = true /\ r <> S754_zero true.
Proof.
  intros rng r. unfold r, Rand.
  pose proof (RngNext_result_range rng) as Hw.
  destruct (RngNext rng) as [w rng'] eqn:E. cbn [fst] in *.
  split; [reflexivity|].
  assert (Hm : 0 <= U32.shr w 9 < 2 ^ 23).
  { unfold U32.shr, U32.in_range, U32.modulus in *. rewrite Z.shiftr_div_pow2 by lia.
    split; [apply Z.div_pos; lia|]. apply Z.div_lt_upper_bound; lia. }
  unfold U32.or. rewrite of_bits_one_mantissa by exact Hm.
  destruct (U32.shr w 9) as [|p|p] eqn:Em.
  - vm_compute. split; [reflexivity|]. split; [reflexivity|]. discriminate.
  - rewrite sub_one_pos by lia.
    destruct (round_small_pos p ltac:(lia)) as [mz [ez [-> Hez]]].
    split; [reflexivity|]. split; [|discriminate].
    unfold F32.ltb, SFltb. rewrite one_bits. cbn [SFcompare].
    rewrite (proj2 (Z.compare_lt_iff _ _) Hez). reflexivity.
  - lia.
Qed.

(** ** Binary32 lemmas for [Interpolate] *)

Lemma mul_one : forall x, is_finite x = true -> F32.mul x F32.one = x.
Proof.
  intros [s| s| |s m e] H; try discriminate H.
  { rewrite one_bits. unfold F32.mul, SFmul. now rewrite xorb_false_r. }
  cbn [is_finite] in H.
  unfold F32.valid, valid_binary, bounded, canonical_mantissa in H.
  apply andb_prop in H as [Hc Hb]. apply Z.eqb_eq in Hc. apply Z.leb_le in Hb.
  rewrite one_bits. unfold F32.mul, SFmul. rewrite xorb_false_r.
  replace (Pos.mul m (2 ^ 23)) with (Pos.iter xO m 23)
    by (rewrite Pos.mul_comm; reflexivity).
  assert (H1 : shr_fexp F32.prec F32.emax (Zpos (Pos.iter xO m 23)) (e + -23) loc_Exact
               = (Build_shr_record (Zpos m) false false, e)).
  { unfold shr_fexp. cbn [Zdigits2]. rewrite digits2_size, size_iter_xO, Pos2Z.inj_add.
    rewrite digits2_size in Hc.
    replace (Zpos (Pos.size m) + Zpos 23 + (e + -23)) with (Zpos (Pos.size m) + e) by lia.
    rewrite Hc. replace (e - (e + -23)) with 23 by lia.
    cbn [shr]. replace (e + -23 + 23) with e by lia. reflexivity. }
  assert (H0 : shr_fexp F32.prec F32.emax (Zpos m) e loc_Exact
               = (Build_shr_record (Zpos m) false false, e)).
  { unfold shr_fexp. cbn [Zdigits2]. rewrite Hc, Z.sub_diag. reflexivity. }
  transitivity (binary_round_aux F32.prec F32.emax s (Zpos m) e loc_Exact).
  - unfold binary_round_aux. rewrite H1, H0. reflexivity.
  - apply round_aux_exact; [exact Hc|]. unfold F32.emax, F32.prec in Hb. lia.
Qed.

Lemma mul_zero : forall x, is_finite x = true ->
  F32.mul x F32.zero = S754_zero (match x with S754_zero s | S754_finite s _ _ => s | _ => false end).
Proof.
  intros [s| s| |s m e] H; try discriminate H; unfold F32.mul, SFmul, F32.zero;
    now rewrite xorb_false_r.
Qed.


Lemma add_zeros_first : forall x a b, is_finite x = true ->
  same_value (F32.add (F32.add x (S754_zero a)) (S754_zero b)) x.
Proof.
  intros [s| s| |s m e] a b H; try discriminate H;
    destruct a, b; try destruct s; unfold same_value; cbn;
    first [left; reflexivity | right; split; reflexivity].
Qed.

Lemma add_zeros_middle : forall y a b, is_finite y = true ->
  same_value (F32.add (F32.add (S754_zero a) y) (S754_zero b)) y.
Proof.
  intros [s| s| |s m e] a b H; try discriminate H;
    destruct a, b; try destruct s; unfold same_value; cbn;
    first [left; reflexivity | right; split; reflexivity].
Qed.

Lemma add_zeros_last : forall z a b, is_finite z = true ->
  same_value (F32.add (F32.add (S754_zero a) (S754_zero b)) z) z.
Proof.
  intros [s| s| |s m e] a b H; try discriminate H;
    destruct a, b; try destruct s; unfold same_value; cbn;
    first [left; reflexivity | right; split; reflexivity].
Qed.


Ltac split_andb :=
  repeat match goal with
         | H : _ && _ = true |- _ => apply andb_prop in H as [? ?]
         end.

Ltac blend_unit :=
  unfold Interpolate3, vertex_same_value, add3, add2, scale3, scale2;
  cbn [position normal texcoord f3x f3y f3z f2x f2y];
  rewrite ?mul_one, ?mul_zero by assumption;
  repeat split;
  first [ apply add_zeros_first | apply add_zeros_middle | apply add_zeros_last ];
  assumption.


(** ** C5 *)

Lemma Interpolate3_component : forall c v0 v1 v2 bary,
  In c vertex_components ->
  c (Interpolate3 v0 v1 v2 bary) = blend3 (c v0) (c v1) (c v2) bary.
Proof.
  intros c v0 v1 v2 bary Hc.
  repeat (destruct Hc as [Hc | Hc]; [subst c; reflexivity |]).
  destruct Hc.
Qed.

Lemma mul_nonfinite_zero : forall x, nonfinite x = true -> F32.mul x F32.zero = S754_nan.
Proof. intros [s| s| |s m e] H; try discriminate H; reflexivity. Qed.

Lemma add_nan_l : forall y, F32.add S754_nan y = S754_nan.
Proof. intros y. reflexivity. Qed.

Lemma add_nan_r : forall x, F32.add x S754_nan = S754_nan.
Proof. intros [s| s| |s m e]; reflexivity. Qed.

Lemma blend3_nan : forall a b c bary,
  (f3x bary = F32.zero /\ nonfinite a = true) \/
  (f3y bary = F32.zero /\ nonfinite b = true) \/
  (f3z bary = F32.zero /\ nonfinite c = true) ->
  blend3 a b c bary = S754_nan.
Proof.
  intros a b c bary [[Hw Ha] | [[Hw Hb] | [Hw Hc]]]; unfold blend3; rewrite Hw.
  - rewrite (mul_nonfinite_zero a Ha), !add_nan_l. reflexivity.
  - rewrite (mul_nonfinite_zero b Hb), add_nan_r, add_nan_l. reflexivity.
  - rewrite (mul_nonfinite_zero c Hc), add_nan_r. reflexivity.
Qed.

(** Claim C5 (amended): for vertices whose components are all zero or
    finite (no infinity, no NaN), the three-weight [Interpolate] with weights
    [(1,0,0)], [(0,1,0)], [(0,0,1)] returns [v0], [v1], [v2] component for
    component, except that a [-0.0] component may come out as [+0.0]
    (equal to it under floating-point comparison); and for any vertices and
    any weights, an infinite or NaN component of a vertex whose weight is
    [0.0] makes that component of the result NaN. *)
Theorem Interpolate3_unit_weights :
  (forall v0 v1 v2,
    vertex_finite v0 = true -> vertex_finite v1 = true -> vertex_finite v2 = true ->
    vertex_same_value (Interpolate3 v0 v1 v2 weights_100) v0 /\
    vertex_same_value (Interpolate3 v0 v1 v2 weights_010) v1 /\
    vertex_same_value (Interpolate3 v0 v1 v2 weights_001) v2) /\
  (forall c v0 v1 v2 bary,
    In c vertex_components ->
    (f3x bary = F32.zero /\ nonfinite (c v0) = true) \/
    (f3y bary = F32.zero /\ nonfinite (c v1) = true) \/
    (f3z bary = F32.zero /\ nonfinite (c v2) = true) ->
    c (Interpolate3 v0 v1 v2 bary) = S754_nan).
Proof.
  split.
  - intros [[? ? ?] [? ? ?] [? ?]] [[? ? ?] [? ? ?] [? ?]] [[? ? ?] [? ? ?] [? ?]] H0 H1 H2.
    unfold vertex_finite, float3_finite, float2_finite in *.
    cbn [position normal texcoord f3x f3y f3z f2x f2y] in *. split_andb.
    split; [|split]; blend_unit.
  - intros c v0 v1 v2 bary Hc Hw.
    rewrite (Interpolate3_component c v0 v1 v2 bary Hc).
    apply blend3_nan. exact Hw.
Qed.


(** Claim C5 (counterexample): with [v1.position.x = +inf] and every other
    component [+0.0], the weights [(1,0,0)] give [+inf * 0 = NaN] in the
    position, so the result is not [v0]. *)
Lemma Interpolate3_unit_weights_nonfinite :
  f3x (position (Interpolate3 vertex_zero vertex_inf vertex_zero weights_100)) = S754_nan /\
  ~ (forall v0 v1 v2,
       Interpolate3 v0 v1 v2 weights_100 = v0 /\
       Interpolate3 v0 v1 v2 weights_010 = v1 /\
       Interpolate3 v0 v1 v2 weights_001 = v2).
Proof.
  split; [reflexivity|]. intros H.
  destruct (H vertex_zero vertex_inf vertex_zero) as [H1 _].
  apply (f_equal (fun v => f3x (position v))) in H1.
  vm_compute in H1. discriminate H1.
Qed.


(** The sign of zero is not kept: [-0.0 * 1 + 0.0 * 0 + 0.0 * 0] is [+0.0]. *)
Example Interpolate3_negative_zero :
  f3z (position (Interpolate3 vertex_a vertex_b vertex_zero weights_100)) = S754_zero false.
Proof. vm_compute. reflexivity. Qed.

Lemma Interpolate3_unit_weights_witness :
  (vertex_finite vertex_a = true /\ vertex_finite vertex_b = true /\
  vertex_finite vertex_zero = true /\
  vertex_same_value (Interpolate3 vertex_a vertex_b vertex_zero weights_100) vertex_a /\
  vertex_same_value (Interpolate3 vertex_a vertex_b vertex_zero weights_010) vertex_b /\
  vertex_same_value (Interpolate3 vertex_a vertex_b vertex_zero weights_001) vertex_zero) /\
  f3x (position (Interpolate3 vertex_zero vertex_inf vertex_zero weights_100)) = S754_nan.
Proof.
  assert (Ha : vertex_finite vertex_a = true) by (vm_compute; reflexivity).
  assert (Hb : vertex_finite vertex_b = true) by (vm_compute; reflexivity).
  assert (Hz : vertex_finite vertex_zero = true) by (vm_compute; reflexivity).
  split.
  - split; [exact Ha|]. split; [exact Hb|]. split; [exact Hz|].
    exact (proj1 Interpolate3_unit_weights vertex_a vertex_b vertex_zero Ha Hb Hz).
  - apply (proj2 Interpolate3_unit_weights (fun v => f3x (position v))).
    + cbn [vertex_components In]. left. reflexivity.
    + right. left. split; reflexivity.
Defined.


(** * Further properties of the header *)

(** ** Bit-level lemmas for the seeding path *)

Lemma testbit_shl32 : forall a k n, 0 <= k -> 0 <= n ->
  Z.testbit (U32.shl a k) n = (n <? 32) && (k <=? n) && Z.testbit a (n - k).
Proof.
  intros a k n Hk Hn. unfold U32.shl, U32.modulus.
  destruct (Z.ltb_spec n 32).
  - rewrite Z.mod_pow2_bits_low by lia. rewrite Z.shiftl_spec by lia.
    destruct (Z.leb_spec k n); [reflexivity|].
    apply Z.testbit_neg_r. lia.
  - rewrite Z.mod_pow2_bits_high by lia. reflexivity.
Qed.

Lemma shl_range : forall a k, U32.in_range (U32.shl a k).
Proof.
  intros a k. unfold U32.in_range, U32.shl, U32.modulus.
  apply Z.mod_pos_bound. lia.
Qed.

Lemma or_range : forall a b,
  U32.in_range a -> U32.in_range b -> U32.in_range (U32.or a b).
Proof.
  intros a b Ha Hb. unfold U32.or. apply range_of_bits.
  - apply Z.lor_nonneg. unfold U32.in_range in *; lia.
  - intros n Hn. rewrite Z.lor_spec, !testbit_high by (assumption || lia). reflexivity.
Qed.

Lemma Hash_in_range : forall x, U32.in_range (Hash x).
Proof.
  intros x. rewrite Hash_stages. unfold hash_stages.
  apply xorshift_range; [lia|]. apply mul_range.
Qed.

(** The left xor-shift is injective on 32-bit words: the bits are recovered
    from bit 0 upwards. *)
Lemma xorshl_inj : forall k x y,
  0 < k -> U32.in_range x -> U32.in_range y -> xorshl k x = xorshl k y -> x = y.
Proof.
  intros k x y Hk Hx Hy Heq.
  assert (Hup : forall d : nat, forall n, 0 <= n < Z.of_nat d ->
            Z.testbit x n = Z.testbit y n).
  { induction d as [|d IH]; intros n Hn; [lia|].
    destruct (Z.lt_ge_cases n (Z.of_nat d)) as [Hlt|Hge]; [apply IH; lia|].
    assert (Hbit : Z.testbit (xorshl k x) n = Z.testbit (xorshl k y) n)
      by now rewrite Heq.
    unfold xorshl, U32.xor in Hbit.
    rewrite !Z.lxor_spec, !testbit_shl32 in Hbit by lia.
    destruct ((n <? 32) && (k <=? n)) eqn:Hc; cbn [andb] in Hbit.
    - apply andb_prop in Hc as [_ Hc]. apply Z.leb_le in Hc.
      rewrite (IH (n - k)) in Hbit by lia.
      destruct (Z.testbit x n), (Z.testbit y n), (Z.testbit y (n - k));
        simpl in Hbit; congruence.
    - now rewrite !xorb_false_r in Hbit. }
  apply Z.bits_inj'. intros n Hn.
  destruct (Z.lt_ge_cases n 32).
  - apply (Hup 32%nat). lia.
  - rewrite !testbit_high by (assumption || lia). reflexivity.
Qed.

Lemma xorshl_range : forall k x, U32.in_range x -> U32.in_range (xorshl k x).
Proof. intros k x Hx. apply xor_range; [exact Hx | apply shl_range]. Qed.

Lemma Hash_onto : forall y, U32.in_range y -> exists x, U32.in_range x /\ Hash x = y.
Proof.
  apply (injective_onto U32.modulus); [intros x _; apply Hash_in_range | exact Hash_inj].
Qed.

Lemma xor_cancel_r : forall a b, U32.xor (U32.xor a b) b = a.
Proof.
  intros a b. unfold U32.xor.
  rewrite Z.lxor_assoc, Z.lxor_nilpotent, Z.lxor_0_r. reflexivity.
Qed.

(** The new [Seed.x] of [RngNext] as a function of the old seeds. *)
Lemma RngNext_seed_x : forall x y,
  seed_x (snd (RngNext (mkCRNG x y))) =
  U32.xor (U32.or (U32.shl x 26) (U32.shr x (32 - 26))) (xorshl 9 (U32.xor y x)).
Proof.
  intros x y. cbn. unfold xorshl, U32.xor. rewrite Z.lxor_assoc. reflexivity.
Qed.

(** The state after [RngNext] is determined by its [Seed.x]. *)
Lemma RngNext_state_by_x : forall s t,
  seed_x (snd (RngNext s)) = seed_x (snd (RngNext t)) -> snd (RngNext s) = snd (RngNext t).
Proof. intros [x y] [x' y'] H. cbn in *. now rewrite H. Qed.

(** For a 32-bit [Seed.x], every 32-bit word is the new [Seed.x] produced by
    some 32-bit [Seed.y]. *)
Lemma RngNext_seed_x_onto : forall x t,
  U32.in_range x -> U32.in_range t ->
  exists y, U32.in_range y /\ seed_x (snd (RngNext (mkCRNG x y))) = t.
Proof.
  intros x t Hx Ht.
  set (r := U32.or (U32.shl x 26) (U32.shr x (32 - 26))).
  assert (Hr : U32.in_range r) by (apply or_range; [apply shl_range | apply shr_range; [exact Hx | lia]]).
  destruct (injective_onto U32.modulus (xorshl 9) (xorshl_range 9)
              (fun a b => xorshl_inj 9 a b ltac:(lia)) (U32.xor r t)
              (xor_range r t Hr Ht)) as [y1 [Hy1 Hg]].
  exists (U32.xor y1 x). split; [now apply xor_range|].
  rewrite RngNext_seed_x, xor_cancel_r. fold r. rewrite Hg.
  unfold U32.xor. rewrite <- Z.lxor_assoc, Z.lxor_nilpotent, Z.lxor_0_l. reflexivity.
Qed.

Lemma InitCRND_seed_x_range : forall idx idy f, U32.in_range (seed_x (InitCRND idx idy f)).
Proof.
  intros idx idy f. unfold InitCRND. rewrite RngNext_seed_x.
  apply xor_range.
  - apply or_range; [apply shl_range | apply shr_range; [apply Hash_in_range | lia]].
  - apply xorshl_range. apply xor_range; apply Hash_in_range.
Qed.

(** Every 32-bit [Seed.x] after the warm-up, hence every state, is reached
    by a pixel at some frame index. *)
Lemma InitCRND_onto_x : forall idx idy t, U32.in_range t ->
  exists f, U32.in_range f /\ seed_x (InitCRND idx idy f) = t.
Proof.
  intros idx idy t Ht.
  destruct (RngNext_seed_x_onto (Hash (U32.or (U32.shl idx 16) idy)) t
              (Hash_in_range _) Ht) as [y [Hy Hx]].
  destruct (Hash_onto y Hy) as [f [Hf Hhf]].
  exists f. split; [exact Hf|]. unfold InitCRND. now rewrite Hhf.
Qed.

Lemma rng_outputs_zero_state : forall n, rng_outputs n (mkCRNG 0 0) = repeat 0 n.
Proof.
  induction n as [|n IH]; [reflexivity|].
  cbn [rng_outputs]. change (RngNext (mkCRNG 0 0)) with (0, mkCRNG 0 0).
  cbn iota beta. now rewrite IH.
Qed.

(** ** The seeding path: [InitCRND] *)

(** Every state that [InitCRND] gives to one pixel at one frame is also the
    state of any other pixel at some frame index: after the warm-up the
    state only depends on one 32-bit word, and the hashed frame index can
    take any value. *)
Theorem InitCRND_state_shared_across_pixels : forall idx idy f idx' idy',
  exists f', U32.in_range f' /\ InitCRND idx' idy' f' = InitCRND idx idy f.
Proof.
  intros idx idy f idx' idy'.
  destruct (InitCRND_onto_x idx' idy' (seed_x (InitCRND idx idy f))
              (InitCRND_seed_x_range idx idy f)) as [f' [Hf' Hx]].
  exists f'. split; [exact Hf'|]. unfold InitCRND in *. now apply RngNext_state_by_x.
Qed.

(** For every pixel some frame index makes [InitCRND] return the all-zero
    state, from which [RngNext] returns only [0] and [Rand] returns [+0.0]. *)
Theorem InitCRND_reaches_zero_state : forall idx idy,
  exists f, U32.in_range f /\ InitCRND idx idy f = mkCRNG 0 0 /\
    (forall n, rng_outputs n (InitCRND idx idy f) = repeat 0 n) /\
    Rand (InitCRND idx idy f) = (F32.zero, mkCRNG 0 0).
Proof.
  intros idx idy.
  destruct (InitCRND_onto_x idx idy 0 ltac:(unfold U32.in_range, U32.modulus; lia))
    as [f [Hf Hx]].
  assert (Hz : InitCRND idx idy f = mkCRNG 0 0).
  { transitivity (snd (RngNext (mkCRNG 0 0))); [|reflexivity].
    unfold InitCRND. apply RngNext_state_by_x. unfold InitCRND in Hx. rewrite Hx. reflexivity. }
  exists f. rewrite Hz. split; [exact Hf|]. split; [reflexivity|]. split.
  - exact rng_outputs_zero_state.
  - reflexivity.
Qed.

(** Pixel [(0, 0)] gets the all-zero state at frame index [2466855044]. *)
Example InitCRND_zero_state_example : InitCRND 0 0 2466855044 = mkCRNG 0 0.
Proof. vm_compute. reflexivity. Qed.

(** Bits 16 and up of [id.x] are shifted out of the packed seed. *)
Lemma pack_ignores_high_id_x : forall idx, U32.shl idx 16 = U32.shl (idx mod 2 ^ 16) 16.
Proof.
  intros idx. apply Z.bits_inj'. intros n Hn.
  rewrite !testbit_shl32 by lia.
  destruct (Z.ltb_spec n 32), (Z.leb_spec 16 n); cbn [andb]; try reflexivity.
  rewrite Z.mod_pow2_bits_low by lia. reflexivity.
Qed.

(** Bits 16 and up of [id.y] are or-ed into the bits of [id.x]. *)
Lemma pack_id_y_high : forall idx idy, U32.in_range idy ->
  U32.or (U32.shl idx 16) idy =
  U32.or (U32.shl (Z.lor (idx mod 2 ^ 16) (Z.shiftr idy 16)) 16) (idy mod 2 ^ 16).
Proof.
  intros idx idy Hy. unfold U32.or. apply Z.bits_inj'. intros n Hn.
  rewrite !Z.lor_spec, !testbit_shl32 by lia.
  destruct (Z.ltb_spec n 32), (Z.leb_spec 16 n); cbn [andb orb].
  - rewrite Z.lor_spec, Z.mod_pow2_bits_low, Z.shiftr_spec, Z.mod_pow2_bits_high by lia.
    replace (n - 16 + 16) with n by lia. now rewrite orb_false_r.
  - rewrite Z.mod_pow2_bits_low by lia. reflexivity.
  - rewrite Z.mod_pow2_bits_high by lia. now apply testbit_high.
  - lia.
Qed.

(** ** The value of [RngNext] and [Rand] *)

Lemma inv_9e3779bb : (0x9e3779bb * 3195233139) mod U32.modulus = 1.
Proof. reflexivity. Qed.

Lemma iter_xO_inj : forall k p q, Pos.iter xO p k = Pos.iter xO q k -> p = q.
Proof.
  induction k as [|k IH] using Pos.peano_ind; intros p q H.
  - simpl in H. congruence.
  - rewrite !Pos.iter_succ in H. injection H as H. now apply IH.
Qed.

Lemma round_small_pos_eq : forall p, Zpos p < 2 ^ 23 ->
  binary_round F32.prec F32.emax false p (-23) =
  S754_finite false (Pos.iter xO p (Z.to_pos (-23 - (Zpos (Pos.size p) - 47))))
    (Zpos (Pos.size p) - 47).
Proof.
  intros p Hp. pose proof (size_bound p 23 ltac:(lia) Hp) as Hd.
  pose proof (Pos2Z.is_pos (Pos.size p)) as Hd0.
  unfold binary_round. rewrite digits2_size, fexp_F32.
  replace (Z.max (Zpos (Pos.size p) + -23 - 24) (-149)) with (Zpos (Pos.size p) - 47) by lia.
  rewrite shl_align_lt by lia.
  apply round_aux_exact; [|lia].
  rewrite digits2_size, size_iter_xO, fexp_F32, Pos2Z.inj_add, Z2Pos.id by lia. lia.
Qed.

(** Distinct 23-bit mantissas give distinct values of [Rand]'s formula. *)
Lemma rand_value_inj : forall m m', 0 <= m < 2 ^ 23 -> 0 <= m' < 2 ^ 23 ->
  F32.sub (F32.of_bits (U32.or 0x3f800000 m)) F32.one =
  F32.sub (F32.of_bits (U32.or 0x3f800000 m')) F32.one -> m = m'.
Proof.
  intros m m' Hm Hm' H. unfold U32.or in H.
  rewrite !of_bits_one_mantissa in H by assumption.
  assert (Hform : forall k, 0 <= k < 2 ^ 23 ->
    F32.sub (S754_finite false (Z.to_pos (k + 2 ^ 23)) (-23)) F32.one =
    match k with
    | Zpos p => S754_finite false (Pos.iter xO p (Z.to_pos (-23 - (Zpos (Pos.size p) - 47))))
                  (Zpos (Pos.size p) - 47)
    | _ => S754_zero false
    end).
  { intros [|p|p] Hk; [vm_compute; reflexivity| |lia].
    rewrite sub_one_pos, round_small_pos_eq by lia. reflexivity. }
  rewrite !Hform in H by assumption.
  destruct m as [|p|p], m' as [|q|q]; try lia; try discriminate H.
    pose proof (f_equal (fun x => match x with S754_finite _ _ e => e | _ => 0 end) H) as Hexp.
    pose proof (f_equal (fun x => match x with S754_finite _ m _ => m | _ => 1%positive end) H)
      as Hmant.
    cbv beta iota in Hexp, Hmant.
    assert (Hs : Pos.size p = Pos.size q) by (apply Pos2Z.inj; lia).
    rewrite Hs in Hmant. apply iter_xO_inj in Hmant. now subst.
Qed.

Lemma Rand_fst : forall rng,
  fst (Rand rng) = F32.sub (F32.of_bits (U32.or 0x3f800000 (U32.shr (fst (RngNext rng)) 9))) F32.one.
Proof. intros rng. unfold Rand. destruct (RngNext rng). reflexivity. Qed.

Lemma RngNext_top_bits : forall rng, 0 <= U32.shr (fst (RngNext rng)) 9 < 2 ^ 23.
Proof.
  intros rng. pose proof (RngNext_result_range rng) as Hw.
  unfold U32.shr, U32.in_range, U32.modulus in *. rewrite Z.shiftr_div_pow2 by lia.
  split; [apply Z.div_pos; lia|]. apply Z.div_lt_upper_bound; lia.
Qed.

(** The value returned by [RngNext] depends only on [Seed.x], and distinct
    32-bit [Seed.x] give distinct values (multiplication by the odd
    constant [0x9e3779bb] modulo [2^32] is invertible). *)
Theorem RngNext_result_injective : forall s t,
  U32.in_range (seed_x s) -> U32.in_range (seed_x t) ->
  (fst (RngNext s) = fst (RngNext t) <-> seed_x s = seed_x t).
Proof.
  intros [x y] [x' y'] Hx Hx'. cbn [seed_x fst RngNext] in *. split.
  - apply (mul_inj _ _ _ _ inv_9e3779bb Hx Hx').
  - intros ->. reflexivity.
Qed.

Lemma RngNext_result_injective_witness :
  U32.in_range 1 /\ U32.in_range 2 /\
  (fst (RngNext (mkCRNG 1 5)) = fst (RngNext (mkCRNG 2 5)) <-> 1 = 2).
Proof.
  assert (H1 : U32.in_range 1) by (unfold U32.in_range, U32.modulus; lia).
  assert (H2 : U32.in_range 2) by (unfold U32.in_range, U32.modulus; lia).
  split; [exact H1|]. split; [exact H2|].
  exact (RngNext_result_injective (mkCRNG 1 5) (mkCRNG 2 5) H1 H2).
Defined.

(** [Rand] keeps the top 23 bits of the word of [RngNext] and loses
    nothing else: two states give the same [Rand] value exactly when their
    [RngNext] words agree on bits 9 to 31. *)
Theorem Rand_value_iff_top_bits : forall s t,
  fst (Rand s) = fst (Rand t) <->
  U32.shr (fst (RngNext s)) 9 = U32.shr (fst (RngNext t)) 9.
Proof.
  intros s t. rewrite !Rand_fst. split.
  - apply rand_value_inj; apply RngNext_top_bits.
  - intros ->. reflexivity.
Qed.

(** ** Packing of the pixel id in [InitCRND] *)

(** [InitCRND] ignores bits 16 and up of [id.x]. *)
Theorem InitCRND_ignores_high_id_x : forall idx idy f,
  InitCRND idx idy f = InitCRND (idx mod 2 ^ 16) idy f.
Proof. intros idx idy f. unfold InitCRND. now rewrite pack_ignores_high_id_x. Qed.

(** A 32-bit [id.y] of 16 bits or more aliases with a pixel whose
    coordinates fit in 16 bits: its high half is or-ed into [id.x]. *)
Theorem InitCRND_id_y_aliasing : forall idx idy f, U32.in_range idy ->
  InitCRND idx idy f =
  InitCRND (Z.lor (idx mod 2 ^ 16) (Z.shiftr idy 16)) (idy mod 2 ^ 16) f.
Proof. intros idx idy f Hy. unfold InitCRND. now rewrite (pack_id_y_high idx idy Hy). Qed.

Lemma InitCRND_id_y_aliasing_witness :
  U32.in_range 65536 /\
  InitCRND 0 65536 7 = InitCRND (Z.lor (0 mod 2 ^ 16) (Z.shiftr 65536 16)) (65536 mod 2 ^ 16) 7 /\
  InitCRND 0 65536 7 = InitCRND 1 0 7.
Proof.
  assert (H : U32.in_range 65536) by (unfold U32.in_range, U32.modulus; lia).
  pose proof (InitCRND_id_y_aliasing 0 65536 7 H) as E.
  split; [exact H|]. split; [exact E|]. rewrite E. reflexivity.
Defined.

(** ** Two-weight [Interpolate] at the corners of the triangle *)

Lemma corner_w_10 : F32.sub (F32.sub F32.one F32.one) F32.zero = F32.zero.
Proof. vm_compute. reflexivity. Qed.
Lemma corner_w_01 : F32.sub (F32.sub F32.one F32.zero) F32.one = F32.zero.
Proof. vm_compute. reflexivity. Qed.
Lemma corner_w_00 : F32.sub (F32.sub F32.one F32.zero) F32.zero = F32.one.
Proof. vm_compute. reflexivity. Qed.

Ltac blend_corner :=
  unfold Interpolate2;
  cbn [f2x f2y];
  rewrite ?corner_w_10, ?corner_w_01, ?corner_w_00;
  unfold vertex_same_value, add3, add2, scale3, scale2;
  cbn [position normal texcoord f3x f3y f3z f2x f2y];
  rewrite ?mul_one, ?mul_zero by assumption;
  repeat split;
  first [ apply add_zeros_first | apply add_zeros_middle | apply add_zeros_last ];
  assumption.

(** For vertices whose components are zero or finite, the two-weight
    [Interpolate] at [(1,0)], [(0,1)] and [(0,0)] (third weight computed as
    [1.0f - u - v]) returns [v0], [v1], [v2] component for component, up to
    a [-0.0] component coming out as [+0.0]. *)
Theorem Interpolate2_corners : forall v0 v1 v2,
  vertex_finite v0 = true -> vertex_finite v1 = true -> vertex_finite v2 = true ->
  vertex_same_value (Interpolate2 v0 v1 v2 (mkF2 F32.one F32.zero)) v0 /\
  vertex_same_value (Interpolate2 v0 v1 v2 (mkF2 F32.zero F32.one)) v1 /\
  vertex_same_value (Interpolate2 v0 v1 v2 (mkF2 F32.zero F32.zero)) v2.
Proof.
  intros [[? ? ?] [? ? ?] [? ?]] [[? ? ?] [? ? ?] [? ?]] [[? ? ?] [? ? ?] [? ?]] H0 H1 H2.
  unfold vertex_finite, float3_finite, float2_finite in *.
  cbn [position normal texcoord f3x f3y f3z f2x f2y] in *. split_andb.
  split; [|split]; blend_corner.
Qed.

Lemma Interpolate2_corners_witness :
  vertex_finite vertex_a = true /\ vertex_finite vertex_b = true /\
  vertex_finite vertex_zero = true /\
  vertex_same_value (Interpolate2 vertex_a vertex_b vertex_zero (mkF2 F32.one F32.zero)) vertex_a /\
  vertex_same_value (Interpolate2 vertex_a vertex_b vertex_zero (mkF2 F32.zero F32.one)) vertex_b /\
  vertex_same_value (Interpolate2 vertex_a vertex_b vertex_zero (mkF2 F32.zero F32.zero)) vertex_zero.
Proof.
  assert (Ha : vertex_finite vertex_a = true) by (vm_compute; reflexivity).
  assert (Hb : vertex_finite vertex_b = true) by (vm_compute; reflexivity).
  assert (Hz : vertex_finite vertex_zero = true) by (vm_compute; reflexivity).
  split; [exact Ha|]. split; [exact Hb|]. split; [exact Hz|].
  exact (Interpolate2_corners vertex_a vertex_b vertex_zero Ha Hb Hz).
Defined.
